(** * ssh-agent-proxy: the proxy key ring and the process entry point

    A shallow embedding of [proxyKeyring] (the aggregating agent that fans
    one request out to the configured backend agents), of [main] (the
    accept loop) in its two variants, and of client sessions interleaving
    on the shared key ring, with the properties the specification states
    about them.

    Go values are modelled as follows.
    - [error] is [option GoError]; [None] is Go's [nil].
    - A call returning [(T, error)] returns a pair; the code under study
      looks at the first component only when the error is [nil].
    - Everything outside the process (the backend agents, the sockets) is a
      [World] threaded through the external calls, so that a backend may
      answer differently each time it is contacted.
    - What the process does to the outside is recorded as a [trace] of
      events: mutex operations, dials, agent calls, closes and log lines. *)

From stdpp Require Import base option list strings relations.
From Stdlib Require Import Lia.

Set Default Proof Using "Type".

(** ** Go errors *)

Inductive GoError :=
| ErrExtensionUnsupported            (* agent.ErrExtensionUnsupported *)
| EOF                                (* io.EOF *)
| ErrExternal (msg : string).        (* any other error value *)

Definition error := option GoError.

(** [errors.Is(err, io.EOF)] *)
Definition errors_Is_EOF (err : GoError) : bool :=
  match err with
  | EOF => true
  | _ => false
  end.

Inductive LogLevel := LevelDebug | LevelInfo | LevelError.

(** The methods of [agent.ExtendedAgent] that the proxy forwards. *)
Inductive Method :=
| MList | MSigners | MAdd | MRemove | MRemoveAll | MLock | MUnlock | MSign.

Definition bytes := list Byte.byte.

(** ** The key ring

    [type proxyKeyring struct { mu sync.Mutex; sockets []string }];
    [mu] is [true] while the mutex is held. *)
Record proxyKeyring := mkProxyKeyring {
  mu : bool;
  sockets : list string
}.

(** The zero value of [sync.Mutex] is an unlocked mutex. *)
Definition NewProxyKeyring (socks : list string) : proxyKeyring :=
  {| mu := false; sockets := socks |}.

(** ** The process entry point

    [main] is run against a scripted operating system: the arguments, the
    answers of [os.CreateTemp] and [net.Listen], and the answers of the
    successive calls of [socket.Accept].  The accept loop never ends; the
    model stops, still serving, when the script of accepts is used up. *)

Definition NetConn := nat.

Record Environment := mkEnvironment {
  os_Args : list string;
  os_CreateTemp : string * error;           (* fp.Name(), err *)
  net_Listen : string → error;
  socket_Accept : list (NetConn * error)
}.

Inductive ProcEvent :=
| PLog (lvl : LogLevel) (msg : string) (attrs : list string)
| PCreateTemp (pattern : string)
| PFileClose (name : string)
| PRemove (name : string)
| PListen (name : string)
| PGo (conn : NetConn)                      (* go handler(conn) *)
| PConnClose (conn : NetConn).

(** The package-level variable holding the key ring, and what the process
    has done so far. *)
Record Process := mkProcess {
  global_keyring : option proxyKeyring;
  output : list ProcEvent
}.

(** Code that may call [os.Exit]: [inr code] ends the process there. *)
Definition Proc (A : Type) : Type := Process → (A + nat) * Process.

#[local] Instance Proc_ret : MRet Proc := λ A a p, (inl a, p).
#[local] Instance Proc_bind : MBind Proc := λ A B f m p,
  match m p with
  | (inl a, p1) => f a p1
  | (inr code, p1) => (inr code, p1)
  end.

Definition os_Exit {A} (code : nat) : Proc A := λ p, (inr code, p).

Definition does (e : ProcEvent) : Proc unit := λ p,
  (inl tt, {| global_keyring := global_keyring p; output := output p ++ [e] |}).

Definition set_global (r : proxyKeyring) : Proc unit := λ p,
  (inl tt, {| global_keyring := Some r; output := output p |}).

Definition get_sockets : Proc (list string) := λ p,
  (inl (from_option sockets [] (global_keyring p)), p).

(** [src/main.go] *)
Module MainGo.

Definition check (err : error) : Proc unit :=
  match err with
  | Some _ => does (PLog LevelError "fatal" []);; os_Exit 1
  | None => mret tt
  end.

Definition cleanup (name : string) : Proc unit :=
  does (PFileClose name);;
  does (PRemove name).

(** [served] is what [agent.ServeAgent(pkr, conn)] returned. *)
Definition handler (conn : NetConn) (served : error) : Proc unit :=
  does (PLog LevelInfo "client accepted" []);;
  match served with
  | Some err =>
      if negb (errors_Is_EOF err)
      then does (PLog LevelError "serve agent" [])
      else mret tt
  | None => mret tt
  end;;
  does (PConnClose conn).

Fixpoint accept_loop (script : list (NetConn * error)) : Proc unit :=
  match script with
  | [] => mret tt
  | (conn, err) :: script =>
      match err with
      | Some _ => does (PLog LevelError "accept" [])
      | None => does (PGo conn)
      end;;
      accept_loop script
  end.

Definition main (env : Environment) : Proc unit :=
  if bool_decide (length (os_Args env) < 2)
  then does (PLog LevelError "fatal" ["no auth sockets specified"]);; os_Exit 1
  else
    set_global (NewProxyKeyring (drop 1 (os_Args env)));;
    does (PCreateTemp "multi-ssh-agent-*");;
    let '(name, err) := os_CreateTemp env in
    check err;;
    cleanup name;;
    socks ← get_sockets;
    does (PLog LevelInfo "starting" (name :: socks));;
    does (PListen name);;
    check (net_Listen env name);;
    accept_loop (socket_Accept env).

End MainGo.

(** [src/unnamed/part_000]: the key ring is held in [mkr]; the accept loop
    logs and [continue]s on an error, and spawns the handler after the
    [if]. *)
Module Part000.

Definition check (err : error) : Proc unit :=
  match err with
  | Some _ => does (PLog LevelError "fatal" []);; os_Exit 1
  | None => mret tt
  end.

Definition cleanup (name : string) : Proc unit :=
  does (PFileClose name);;
  does (PRemove name).

(** [served] is what [agent.ServeAgent(mkr, conn)] returned. *)
Definition handler (conn : NetConn) (served : error) : Proc unit :=
  does (PLog LevelInfo "client accepted" []);;
  match served with
  | Some err =>
      if negb (errors_Is_EOF err)
      then does (PLog LevelError "serve agent" [])
      else mret tt
  | None => mret tt
  end;;
  does (PConnClose conn).

Fixpoint accept_loop (script : list (NetConn * error)) : Proc unit :=
  match script with
  | [] => mret tt
  | (conn, err) :: script =>
      match err with
      | Some _ =>
          does (PLog LevelError "accept" []);;
          accept_loop script                       (* continue *)
      | None =>
          does (PGo conn);;
          accept_loop script
      end
  end.

Definition main (env : Environment) : Proc unit :=
  if bool_decide (length (os_Args env) < 2)
  then does (PLog LevelError "fatal" ["no auth sockets specified"]);; os_Exit 1
  else
    set_global (NewProxyKeyring (drop 1 (os_Args env)));;
    does (PCreateTemp "multi-ssh-agent-*");;
    let '(name, err) := os_CreateTemp env in
    check err;;
    cleanup name;;
    socks ← get_sockets;
    does (PLog LevelInfo "starting" (name :: socks));;
    does (PListen name);;
    check (net_Listen env name);;
    accept_loop (socket_Accept env).

End Part000.

(** What one turn of the accept loop is expected to do with the answer of
    [socket.Accept]: spawn the handler when it succeeded, log otherwise. *)
Definition accept_event (r : NetConn * error) : ProcEvent :=
  match r with
  | (conn, None) => PGo conn
  | (_, Some _) => PLog LevelError "accept" []
  end.

(** [err != nil] *)
Definition failed (err : error) : bool :=
  match err with
  | Some _ => true
  | None => false
  end.

(** The three conditions under which [main] gives up: no socket on the
    command line, no temporary file, no listening socket. *)
Definition startup_failure (env : Environment) : bool :=
  bool_decide (length (os_Args env) < 2)
  || failed (os_CreateTemp env).2
  || failed (net_Listen env (os_CreateTemp env).1).

(** The process as it starts: [var pkr *proxyKeyring] is [nil]. *)
Definition boot : Process := {| global_keyring := None; output := [] |}.

(** ** Concurrent client sessions

    Every accepted client is served by its own goroutine, and all of them
    share the one key ring.  A session is followed through the program
    points of [agents]; [opened] counts the connections whose deferred
    [Close] is pending. *)
















(** ** A small world to run the model on

    Three backends: [/a] is offline, [/b] and [/c] answer.  The world
    counts the round trips made. *)

Definition demo_Dial (socket : string) (w : nat) : (string * error) * nat :=
  if String.eqb socket "/a"
  then (("", Some (ErrExternal "connection refused")), w)
  else ((socket, None), w).

Definition demo_Close (c : string) (w : nat) : error * nat := (None, w).

Definition demo_List (c : string) (w : nat) : (list string * error) * nat :=
  if String.eqb c "/b" then ((["x"], None), S w)
  else ((["y"; "z"], None), S w).

Definition demo_Sign (c : string) (key : string) (data : bytes) (w : nat)
    : (option string * error) * nat :=
  ((Some (String.append "signed by " c), None), S w).

Definition demo_Add (c : string) (key : string) (w : nat) : error * nat :=
  (None, S w).

(** A backend that refuses every request. *)
Definition deny {A} (c : string) (x : A) (w : nat) : error * nat :=
  (Some (ErrExternal "agent refused operation"), S w).

Definition deny_Sign (c : string) (key : string) (data : bytes) (w : nat)
    : (option string * error) * nat :=
  ((None, Some (ErrExternal "agent refused operation")), S w).

Definition demo_RemoveAll (c : string) (w : nat) : error * nat :=
  (Some (ErrExternal "agent refused operation"), S w).

Section ProxyKeyring.

(** Opaque protocol values, the outside world and its connections. *)
Context {World Conn Key PublicKey Signature Signer AddedKey : Type}.

(** [net.Dial("unix", socket)] and [conn.Close()]. *)
Variable net_Dial : string → World → (Conn * error) * World.
Variable conn_Close : Conn → World → error * World.

(** The agent client obtained from [agent.NewClient(conn)]: one function
    per method of the interface, each a round trip to the backend. *)
Variable client_List : Conn → World → (list Key * error) * World.
Variable client_Signers : Conn → World → (list Signer * error) * World.
Variable client_Add : Conn → AddedKey → World → error * World.
Variable client_Remove : Conn → PublicKey → World → error * World.
Variable client_RemoveAll : Conn → World → error * World.
Variable client_Lock : Conn → bytes → World → error * World.
Variable client_Unlock : Conn → bytes → World → error * World.
Variable client_Sign :
  Conn → PublicKey → bytes → World → (option Signature * error) * World.

(** ** Program state *)

Inductive Event :=
| EvMuLock
| EvMuUnlock
| EvDial (socket : string)
| EvCall (c : Conn) (m : Method)
| EvClose (c : Conn)
| EvLog (lvl : LogLevel) (msg : string).

Record State := mkState {
  keyring : proxyKeyring;
  world : World;
  trace : list Event
}.

(** ** The state monad of sequential code *)

Definition M (A : Type) : Type := State → A * State.

#[local] Instance M_ret : MRet M := λ A a st, (a, st).
#[local] Instance M_bind : MBind M := λ A B f m st,
  let '(a, st1) := m st in f a st1.

Definition emit (e : Event) : M unit := λ st,
  (tt, {| keyring := keyring st; world := world st; trace := trace st ++ [e] |}).

(** An external call: the event is recorded, the world answers. *)
Definition external {A} (e : Event) (f : World → A * World) : M A := λ st,
  let '(a, w) := f (world st) in
  (a, {| keyring := keyring st; world := w; trace := trace st ++ [e] |}).

Definition slog_Error (msg : string) : M unit := emit (EvLog LevelError msg).
Definition slog_Debug (msg : string) : M unit := emit (EvLog LevelDebug msg).

Definition Dial (socket : string) : M (Conn * error) :=
  external (EvDial socket) (net_Dial socket).
Definition Close (c : Conn) : M error :=
  external (EvClose c) (conn_Close c).

Definition ExtendedAgent := Conn.
Definition agent_NewClient (c : Conn) : ExtendedAgent := c.

Definition a_List (a : ExtendedAgent) := external (EvCall a MList) (client_List a).
Definition a_Signers (a : ExtendedAgent) := external (EvCall a MSigners) (client_Signers a).
Definition a_Add (a : ExtendedAgent) (key : AddedKey) :=
  external (EvCall a MAdd) (client_Add a key).
Definition a_Remove (a : ExtendedAgent) (key : PublicKey) :=
  external (EvCall a MRemove) (client_Remove a key).
Definition a_RemoveAll (a : ExtendedAgent) :=
  external (EvCall a MRemoveAll) (client_RemoveAll a).
Definition a_Lock (a : ExtendedAgent) (passphrase : bytes) :=
  external (EvCall a MLock) (client_Lock a passphrase).
Definition a_Unlock (a : ExtendedAgent) (passphrase : bytes) :=
  external (EvCall a MUnlock) (client_Unlock a passphrase).
Definition a_Sign (a : ExtendedAgent) (key : PublicKey) (data : bytes) :=
  external (EvCall a MSign) (client_Sign a key data).

(** ** sync.Mutex

    [None] means the call does not return: [Lock] on a held mutex blocks,
    [Unlock] of a free mutex is a fatal runtime error. *)

Definition mu_Lock (st : State) : option State :=
  if mu (keyring st) then None
  else Some {| keyring := {| mu := true; sockets := sockets (keyring st) |};
               world := world st;
               trace := trace st ++ [EvMuLock] |}.

Definition mu_Unlock (st : State) : option State :=
  if mu (keyring st)
  then Some {| keyring := {| mu := false; sockets := sockets (keyring st) |};
               world := world st;
               trace := trace st ++ [EvMuUnlock] |}
  else None.

(** ** The iterator [agents]

    [for a := range r.agents() { body }] calls the iterator with a [yield]
    that runs the body on [a]; [yield] answers [false] when the body left
    the loop ([return]), [true] when it reached its end or [continue]d.
    The body's view of the enclosing function's variables is [L]. *)

Inductive Deferred :=
| DeferUnlock                 (* defer r.mu.Unlock() *)
| DeferClose (c : Conn).      (* defer func() { _ = conn.Close() }() *)

Definition Yield (L : Type) := ExtendedAgent → L → M (bool * L).

(** [for _, socket := range r.sockets { ... }]; the deferred calls pile up
    on the function's stack, most recent first. *)
Fixpoint range_sockets {L} (socks : list string) (yield : Yield L)
    (defers : list Deferred) (l : L) : M (L * list Deferred) :=
  match socks with
  | [] => mret (l, defers)
  | socket :: rest =>
      '(conn, err) ← Dial socket;
      match err with
      | Some _ =>
          slog_Error "error dialing";;
          range_sockets rest yield defers l
      | None =>
          let defers := DeferClose conn :: defers in
          '(more, l) ← yield (agent_NewClient conn) l;
          if more : bool then range_sockets rest yield defers l
          else mret (l, defers)
      end
  end.

(** Deferred calls run when the function returns, last pushed first. *)
Fixpoint run_defers (ds : list Deferred) (st : State) : option State :=
  match ds with
  | [] => Some st
  | DeferClose c :: ds => run_defers ds (Close c st).2
  | DeferUnlock :: ds =>
      match mu_Unlock st with
      | Some st => run_defers ds st
      | None => None
      end
  end.

Definition agents {L} (yield : Yield L) (l : L) (st : State) : option (L * State) :=
  match mu_Lock st with
  | None => None
  | Some st =>
      let '((l, defers), st) :=
        range_sockets (sockets (keyring st)) yield [DeferUnlock] l st in
      match run_defers defers st with
      | Some st => Some (l, st)
      | None => None
      end
  end.

(** ** The operations of the key ring *)

(** Run a loop over [agents], then the code after the loop. *)
Definition range_agents {L A} (yield : Yield L) (l : L) (after : L → A)
    (st : State) : option (A * State) :=
  match agents yield l st with
  | Some (l, st) => Some (after l, st)
  | None => None
  end.

Definition RemoveAll : State → option (error * State) :=
  range_agents
    (λ a (_ : unit),
       err ← a_RemoveAll a;
       match err with
       | Some _ => slog_Error "remove all";; mret (true, tt)
       | None => mret (true, tt)
       end)
    tt (λ _, None).

Definition Remove (key : PublicKey) : State → option (error * State) :=
  range_agents
    (λ a (_ : unit),
       err ← a_Remove a key;
       match err with
       | Some _ => slog_Error "remove";; mret (true, tt)
       | None => mret (true, tt)
       end)
    tt (λ _, None).

Definition Lock (passphrase : bytes) : State → option (error * State) :=
  range_agents
    (λ a (_ : unit),
       err ← a_Lock a passphrase;
       match err with
       | Some _ => slog_Error "lock";; mret (true, tt)
       | None => mret (true, tt)
       end)
    tt (λ _, None).

Definition Unlock (passphrase : bytes) : State → option (error * State) :=
  range_agents
    (λ a (_ : unit),
       err ← a_Unlock a passphrase;
       match err with
       | Some _ => slog_Error "unlock";; mret (true, tt)
       | None => mret (true, tt)
       end)
    tt (λ _, None).

Definition slices_Concat {A} (xs ys : list A) : list A := xs ++ ys.

Definition List : State → option ((list Key * error) * State) :=
  range_agents
    (λ a (merged : list Key),
       '(res, err) ← a_List a;
       match err with
       | Some _ => slog_Error "error listing";; mret (true, merged)
       | None => mret (true, slices_Concat merged res)
       end)
    [] (λ merged, (merged, None)).

(** The loop body of [Add] and [Sign] may [return]: the value to return
    is kept in [L] and the loop is left. *)
Definition Add (key : AddedKey) : State → option (error * State) :=
  range_agents
    (λ a (ret : option error),
       err ← a_Add a key;
       match err with
       | Some _ => slog_Error "error adding";; mret (true, ret)
       | None => slog_Debug "key added";; mret (false, Some None)
       end)
    None
    (λ ret, match ret with Some e => e | None => None end).

Definition Sign (key : PublicKey) (data : bytes)
    : State → option ((option Signature * error) * State) :=
  range_agents
    (λ a (ret : option (option Signature * error)),
       '(sig, err) ← a_Sign a key data;
       match err with
       | Some _ => slog_Error "sign failed";; mret (true, ret)
       | None => mret (false, Some (sig, None))
       end)
    None
    (λ ret, match ret with Some r => r | None => (None, None) end).

Definition Signers : State → option ((list Signer * error) * State) :=
  range_agents
    (λ a (merged : list Signer),
       '(res, err) ← a_Signers a;
       match err with
       | Some _ => slog_Error "signers";; mret (true, merged)
       | None => mret (true, slices_Concat merged res)
       end)
    [] (λ merged, (merged, None)).

Definition Extension (extensionType : string) (contents : bytes)
    : State → option ((bytes * error) * State) :=
  λ st, Some (([], Some ErrExtensionUnsupported), st).

(** One request of the agent protocol, as [agent.ServeAgent] hands it to
    the key ring. *)
Inductive Request :=
| ReqList
| ReqSigners
| ReqAdd (key : AddedKey)
| ReqRemove (key : PublicKey)
| ReqRemoveAll
| ReqLock (passphrase : bytes)
| ReqUnlock (passphrase : bytes)
| ReqSign (key : PublicKey) (data : bytes)
| ReqExtension (extensionType : string) (contents : bytes).

(** The state in which the method called for [req] returns. *)
Definition perform (req : Request) (st : State) : option State :=
  match req with
  | ReqList => snd <$> List st
  | ReqSigners => snd <$> Signers st
  | ReqAdd key => snd <$> Add key st
  | ReqRemove key => snd <$> Remove key st
  | ReqRemoveAll => snd <$> RemoveAll st
  | ReqLock passphrase => snd <$> Lock passphrase st
  | ReqUnlock passphrase => snd <$> Unlock passphrase st
  | ReqSign key data => snd <$> Sign key data st
  | ReqExtension ty contents => snd <$> Extension ty contents st
  end.

(** ** What the backends answer

    The answer of one configured backend during a pass: it could not be
    dialed, or it was dialed and its agent replied. *)
Inductive Reply (R : Type) :=
| Unreachable
| Replied (c : Conn) (res : R) (err : error).
Arguments Unreachable {R}.
Arguments Replied {R} c res err.

(** The answers of the backends at [socks] when each is dialed and asked in
    turn, starting from world [w]. *)
Fixpoint probe {R} (call : Conn → World → (R * error) * World)
    (socks : list string) (w : World) : list (Reply R) :=
  match socks with
  | [] => []
  | socket :: rest =>
      match net_Dial socket w with
      | ((_, Some _), w1) => Unreachable :: probe call rest w1
      | ((c, None), w1) =>
          let '((res, err), w2) := call c w1 in
          Replied c res err :: probe call rest w2
      end
  end.

(** A method that returns an error only. *)
Definition only_error (f : Conn → World → error * World)
    : Conn → World → (unit * error) * World :=
  λ c w, let '(err, w1) := f c w in ((tt, err), w1).

Definition succeeded {R} (r : Reply R) : bool :=
  match r with
  | Replied _ _ None => true
  | _ => false
  end.

(** What a backend adds to a merged listing. *)
Definition contribution {A} (r : Reply (list A)) : list A :=
  match r with
  | Replied _ res None => res
  | _ => []
  end.

(** Position and result of the first backend that replied without error. *)
Fixpoint first_success {R} (outs : list (Reply R)) : option (nat * R) :=
  match outs with
  | [] => None
  | Replied _ res None :: _ => Some (0, res)
  | _ :: outs => prod_map S id <$> first_success outs
  end.

(** The connections opened towards the backends that answered the dial. *)
Definition connected {R} (outs : list (Reply R)) : list Conn :=
  omap (λ r, match r with Replied c _ _ => Some c | Unreachable => None end) outs.

(** Projections of a trace: the sockets dialed, the agents called, the
    connections closed and the mutex operations, each in order. *)
Definition dialed (tr : list Event) : list string :=
  omap (λ e, match e with EvDial s => Some s | _ => None end) tr.

Definition called (tr : list Event) : list (Conn * Method) :=
  omap (λ e, match e with EvCall c m => Some (c, m) | _ => None end) tr.

Definition closed (tr : list Event) : list Conn :=
  omap (λ e, match e with EvClose c => Some c | _ => None end) tr.

Definition is_log (e : Event) : Prop :=
  match e with EvLog _ _ => True | _ => False end.

(** Events of the loop itself: no mutex operation and no close. *)
Definition in_loop (e : Event) : Prop :=
  match e with
  | EvDial _ | EvCall _ _ | EvLog _ _ => True
  | EvMuLock | EvMuUnlock | EvClose _ => False
  end.

Definition mutex_event (e : Event) : Prop :=
  match e with EvMuLock | EvMuUnlock => True | _ => False end.

(** The loop of [range_sockets] read off the replies: how many backends
    were visited and the final value of the body's variables, when a reply
    without error is handled by [on_ok]. *)
Fixpoint fanout {R L} (on_ok : R → L → bool * L) (outs : list (Reply R)) (l : L)
    : nat * L :=
  match outs with
  | [] => (0, l)
  | Replied _ res None :: outs =>
      let '(more, l) := on_ok res l in
      if more : bool then prod_map S id (fanout on_ok outs l) else (1, l)
  | _ :: outs => prod_map S id (fanout on_ok outs l)
  end.

(** [yield] forwards method [m] to the agent and handles the reply: an
    error is logged and the loop goes on, a result is handled by [on_ok];
    besides the call it only logs. *)
Definition forwards {R L} (m : Method) (call : Conn → World → (R * error) * World)
    (on_ok : R → L → bool * L) (yield : Yield L) : Prop :=
  ∀ a l st, ∃ logs,
    Forall is_log logs ∧
    yield a l st =
      let '((res, err), w) := call a (world st) in
      (match err with Some _ => (true, l) | None => on_ok res l end,
       {| keyring := keyring st; world := w;
          trace := trace st ++ EvCall a m :: logs |}).

(** The method of the backend agents a request is forwarded as;
    [Extension] is forwarded to no one. *)
Definition method_of (req : Request) : option Method :=
  match req with
  | ReqList => Some MList
  | ReqSigners => Some MSigners
  | ReqAdd _ => Some MAdd
  | ReqRemove _ => Some MRemove
  | ReqRemoveAll => Some MRemoveAll
  | ReqLock _ => Some MLock
  | ReqUnlock _ => Some MUnlock
  | ReqSign _ _ => Some MSign
  | ReqExtension _ _ => None
  end.

(** The requests of one client, served one after the other. *)
Fixpoint perform_all (reqs : list Request) (st : State) : option State :=
  match reqs with
  | [] => Some st
  | req :: reqs =>
      match perform req st with
      | Some st => perform_all reqs st
      | None => None
      end
  end.

(** From [st] to [st'] every configured backend was dialed, in order; each
    one that answered the dial was sent method [m] once, in order; the
    connections were closed, latest first; the key ring is as it was. *)
Definition visits_all {R} (m : Method) (call : Conn → World → (R * error) * World)
    (st st' : State) : Prop :=
  dialed (trace st') = dialed (trace st) ++ sockets (keyring st) ∧
  called (trace st') = called (trace st) ++ ((λ c, (c, m)) <$>
    connected (probe call (sockets (keyring st)) (world st))) ∧
  closed (trace st') = closed (trace st) ++
    rev (connected (probe call (sockets (keyring st)) (world st))) ∧
  keyring st' = keyring st.

(** ** Traces *)

Lemma dialed_app tr1 tr2 : dialed (tr1 ++ tr2) = dialed tr1 ++ dialed tr2.
Proof. apply omap_app. Qed.

Lemma called_app tr1 tr2 : called (tr1 ++ tr2) = called tr1 ++ called tr2.
Proof. apply omap_app. Qed.

Lemma closed_app tr1 tr2 : closed (tr1 ++ tr2) = closed tr1 ++ closed tr2.
Proof. apply omap_app. Qed.

Lemma logs_silent logs :
  Forall is_log logs →
  dialed logs = [] ∧ called logs = [] ∧ closed logs = [] ∧ Forall in_loop logs.
Proof.
  induction 1 as [|e logs He _ (Hd & Hc & Hx & Hl)]; [done|].
  destruct e; try done.
  cbn. by repeat split; [..|constructor].
Qed.

Lemma in_loop_closed evs : Forall in_loop evs → closed evs = [].
Proof.
  induction 1 as [|e evs He _ IH]; [done|].
  destruct e; done.
Qed.

Lemma probe_length {R} (call : Conn → World → (R * error) * World) socks w :
  length (probe call socks w) = length socks.
Proof.
  revert w. induction socks as [|s socks IH]; intros w; [done|].
  cbn. destruct (net_Dial s w) as [[c [e|]] w1]; cbn.
  - by rewrite IH.
  - destruct (call c w1) as [[res err] w2]. cbn. by rewrite IH.
Qed.

(** ** The loop over the sockets *)

Lemma range_sockets_fanout {R L} m (call : Conn → World → (R * error) * World)
    (on_ok : R → L → bool * L) (yield : Yield L) :
  forwards m call on_ok yield →
  ∀ socks defers l st n l',
    fanout on_ok (probe call socks (world st)) l = (n, l') →
    ∃ evs w,
      range_sockets socks yield defers l st =
        ((l', (DeferClose <$> rev (connected (take n (probe call socks (world st)))))
                ++ defers),
         {| keyring := keyring st; world := w; trace := trace st ++ evs |}) ∧
      dialed evs = take n socks ∧
      called evs = (λ c, (c, m)) <$> connected (take n (probe call socks (world st))) ∧
      Forall in_loop evs.
Proof.
  intros Hfw socks.
  induction socks as [|socket rest IH]; intros defers l st n l' Hf.
  { cbn in Hf. injection Hf as <- <-.
    exists [], (world st). cbn. rewrite app_nil_r. by destruct st. }
  cbn [range_sockets probe] in *.
  unfold Dial, external, mbind, M_bind at 1.
  destruct (net_Dial socket (world st)) as [[c [e|]] w1].
  - (* dial failed *)
    cbn in Hf.
    destruct (fanout on_ok (probe call rest w1) l) as [n0 l0] eqn:Hf0.
    cbn in Hf. injection Hf as <- <-.
    set (st1 := {| keyring := keyring st; world := w1;
                   trace := (trace st ++ [EvDial socket]) ++
                            [EvLog LevelError "error dialing"] |}).
    destruct (IH defers l st1 n0 l0 Hf0) as (evs & w & Hrun & Hd & Hc & Hl).
    exists (EvDial socket :: EvLog LevelError "error dialing" :: evs), w.
    split; [|split; [|split]].
    + cbn. fold st1. rewrite Hrun. cbn. by rewrite <- !app_assoc.
    + unfold dialed in *. cbn. by rewrite Hd.
    + done.
    + by repeat constructor.
  - (* dialed: the body runs *)
    set (st1 := {| keyring := keyring st; world := w1;
                   trace := trace st ++ [EvDial socket] |}).
    destruct (Hfw c l st1) as (logs & Hlogs & Hy).
    destruct (logs_silent _ Hlogs) as (Ld & Lc & _ & Ll).
    unfold agent_NewClient, M_bind. rewrite Hy. clear Hy.
    unfold st1. cbn [world keyring trace].
    destruct (call c w1) as [[res err] w2].
    cbn [fanout] in Hf.
    set (st2 := {| keyring := keyring st; world := w2;
                   trace := (trace st ++ [EvDial socket]) ++ EvCall c m :: logs |}).
    assert (Hnext : ∀ l1 n0,
      fanout on_ok (probe call rest w2) l1 = (n0, l') →
      ∃ evs w,
        range_sockets rest yield (DeferClose c :: defers) l1 st2 =
          ((l', (DeferClose <$> rev (connected
                   (take (S n0) (Replied c res err :: probe call rest w2)))) ++ defers),
           {| keyring := keyring st; world := w; trace := trace st ++ evs |}) ∧
        dialed evs = take (S n0) (socket :: rest) ∧
        called evs = (λ c, (c, m)) <$>
          connected (take (S n0) (Replied c res err :: probe call rest w2)) ∧
        Forall in_loop evs).
    { intros l1 n0 Hf0.
      destruct (IH (DeferClose c :: defers) l1 st2 n0 l' Hf0)
        as (evs & w & Hrun & Hd & Hc & Hl).
      exists (EvDial socket :: EvCall c m :: logs ++ evs), w.
      split; [|split; [|split]].
      - rewrite Hrun. unfold connected. cbn.
        rewrite ?fmap_app, <- ?app_assoc. cbn. by rewrite <- ?app_assoc.
      - unfold dialed in *. cbn. by rewrite omap_app, Ld, Hd.
      - unfold called in *. cbn. by rewrite omap_app, Lc, Hc.
      - repeat constructor. by apply Forall_app. }
    destruct err as [e|].
    + (* the agent answered with an error *)
      destruct (fanout on_ok (probe call rest w2) l) as [n0 l0] eqn:Hf0.
      cbn in Hf. injection Hf as <- <-.
      cbn. fold st2. by apply Hnext.
    + (* the agent answered *)
      destruct (on_ok res l) as [[|] l1] eqn:Hok.
      * destruct (fanout on_ok (probe call rest w2) l1) as [n0 l0] eqn:Hf0.
        cbn in Hf. injection Hf as <- <-.
        cbn. fold st2. by apply Hnext.
      * injection Hf as <- <-.
        exists (EvDial socket :: EvCall c m :: logs), w2.
        split; [|split; [|split]].
        -- unfold mret, M_ret, st2, connected. cbn. rewrite take_0. cbn.
           by rewrite <- ?app_assoc.
        -- unfold dialed in *. cbn. by rewrite Ld, take_0.
        -- unfold called, connected in *. cbn. by rewrite Lc, take_0.
        -- by repeat constructor.
Qed.

(** ** The deferred calls and the whole iterator *)

Lemma run_defers_closes cs st :
  mu (keyring st) = true →
  ∃ w, run_defers ((DeferClose <$> cs) ++ [DeferUnlock]) st =
         Some {| keyring := {| mu := false; sockets := sockets (keyring st) |};
                 world := w;
                 trace := trace st ++ (EvClose <$> cs) ++ [EvMuUnlock] |}.
Proof.
  revert st. induction cs as [|c cs IH]; intros st Hmu.
  - exists (world st). cbn. unfold mu_Unlock. by rewrite Hmu.
  - cbn [fmap list_fmap app run_defers].
    destruct (IH (Close c st).2) as [w Hw].
    { unfold Close, external. by destruct (conn_Close c (world st)). }
    exists w. rewrite Hw. unfold Close, external.
    destruct (conn_Close c (world st)) as [e w1]. cbn.
    by rewrite <- app_assoc.
Qed.

(** A pass of [agents] over the configured sockets: it takes the mutex,
    visits the first [n] backends, closes what it opened, latest first,
    and releases the mutex; the key ring is as it was. *)
Lemma agents_fanout {R L} m (call : Conn → World → (R * error) * World)
    (on_ok : R → L → bool * L) (yield : Yield L) :
  forwards m call on_ok yield →
  ∀ l st n l',
    mu (keyring st) = false →
    fanout on_ok (probe call (sockets (keyring st)) (world st)) l = (n, l') →
    ∃ evs w,
      agents yield l st =
        Some (l', {| keyring := keyring st; world := w;
                     trace := trace st ++ EvMuLock :: evs ++
                       (EvClose <$> rev (connected
                          (take n (probe call (sockets (keyring st)) (world st)))))
                       ++ [EvMuUnlock] |}) ∧
      dialed evs = take n (sockets (keyring st)) ∧
      called evs = (λ c, (c, m)) <$>
        connected (take n (probe call (sockets (keyring st)) (world st))) ∧
      Forall in_loop evs.
Proof.
  intros Hfw l st n l' Hmu Hf.
  unfold agents, mu_Lock. rewrite Hmu.
  set (st1 := {| keyring := _; world := world st; trace := _ |}).
  destruct (range_sockets_fanout m call on_ok yield Hfw
              (sockets (keyring st)) [DeferUnlock] l st1 n l' Hf)
    as (evs & w & Hrun & Hd & Hc & Hl).
  cbn [keyring sockets st1]. rewrite Hrun.
  cbn [world st1 keyring trace].
  set (st2 := {| keyring := _; world := w; trace := _ |}).
  destruct (run_defers_closes
              (rev (connected (take n (probe call (sockets (keyring st)) (world st)))))
              st2 eq_refl) as [w' Hw].
  rewrite Hw. exists evs, w'. split; [|done].
  cbn. destruct (keyring st) as [held socks]. cbn in *. subst held.
  by rewrite <- !app_assoc.
Qed.

Lemma agents_blocked {L} (yield : Yield L) l st :
  mu (keyring st) = true → agents yield l st = None.
Proof. intros Hmu. unfold agents, mu_Lock. by rewrite Hmu. Qed.

(** ** The three shapes of loop *)

Lemma fanout_collect {A} (outs : list (Reply (list A))) merged :
  fanout (λ res merged, (true, slices_Concat merged res)) outs merged =
    (length outs, merged ++ concat (contribution <$> outs)).
Proof.
  revert merged. induction outs as [|r outs IH]; intros merged; cbn.
  { by rewrite app_nil_r. }
  destruct r as [|c res [e|]]; cbn; rewrite IH; cbn; [done..|].
  unfold slices_Concat. by rewrite <- app_assoc.
Qed.

Lemma fanout_broadcast {R} (outs : list (Reply R)) :
  fanout (λ _ (_ : unit), (true, tt)) outs tt = (length outs, tt).
Proof.
  induction outs as [|r outs IH]; cbn; [done|].
  destruct r as [|c res [e|]]; cbn; by rewrite IH.
Qed.

Lemma fanout_first {R L} (g : R → L) (outs : list (Reply R)) l :
  fanout (λ res _, (false, g res)) outs l =
    match first_success outs with
    | Some (k, res) => (S k, g res)
    | None => (length outs, l)
    end.
Proof.
  induction outs as [|r outs IH]; cbn; [done|].
  destruct r as [|c res [e|]]; cbn; [| |done];
    rewrite IH; by destruct (first_success outs) as [[k res']|].
Qed.

(** [first_success] finds the first reply without error: every reply
    before it is a failure. *)
Lemma first_success_Some {R} (outs : list (Reply R)) k res :
  first_success outs = Some (k, res) ↔
  (∃ c, outs !! k = Some (Replied c res None)) ∧
  (∀ j r, j < k → outs !! j = Some r → succeeded r = false).
Proof.
  revert k. induction outs as [|r outs IH]; intros k.
  { split; [done|]. by intros [[c Hc] _]. }
  assert (Hlater : succeeded r = false →
    (prod_map S id <$> first_success outs = Some (k, res)) ↔
    (∃ c, (r :: outs) !! k = Some (Replied c res None)) ∧
    (∀ j r', j < k → (r :: outs) !! j = Some r' → succeeded r' = false)).
  { intros Hr. split.
    - intros ([k' res'] & Hf & Heq)%fmap_Some.
      cbn in Heq. injection Heq as -> ->.
      apply IH in Hf as [Hk Hbefore]. split; [done|].
      intros [|j] r' Hj; cbn; [by intros [= <-]|].
      apply Hbefore. lia.
    - intros [[c Hk] Hbefore]. destruct k as [|k]; cbn in Hk.
      { injection Hk as ->. done. }
      apply fmap_Some. exists (k, res). split; [|done].
      apply IH. split; [by exists c|].
      intros j r' Hj Hr'. apply (Hbefore (S j)); [lia|done]. }
  destruct r as [|c res' [e|]]; cbn [first_success]; [by apply Hlater..|].
  split.
  - intros [= <- <-]. split; [by exists c|]. intros j r' Hj. lia.
  - intros [[c' Hk] Hbefore]. destruct k as [|k].
    + by injection Hk as _ ->.
    + by specialize (Hbefore 0 _ ltac:(lia) eq_refl).
Qed.

Lemma first_success_None {R} (outs : list (Reply R)) :
  first_success outs = None ↔ Forall (λ r, succeeded r = false) outs.
Proof.
  induction outs as [|r outs IH]; [done|].
  rewrite Forall_cons, <- IH.
  destruct r as [|c res [e|]]; cbn; rewrite ?fmap_None.
  - split; [done|by intros [_ ?]].
  - split; [done|by intros [_ ?]].
  - split; [done|by intros [? _]].
Qed.

(** ** The loop bodies forward to the agent *)

Ltac logged :=
  (split; last (by rewrite <- ?app_assoc)); by repeat constructor.

Ltac forwarding call :=
  let a := fresh "a" in let l := fresh "l" in let st := fresh "st" in
  let e := fresh "e" in let w := fresh "w" in
  intros a l st;
  try match type of l with unit => destruct l end;
  unfold a_List, a_Signers, a_Add, a_Remove, a_RemoveAll, a_Lock, a_Unlock,
    a_Sign, only_error, external, slog_Error, slog_Debug, emit,
    mbind, M_bind, mret, M_ret;
  destruct (call a (world st)) as [[? [e|]] w] || destruct (call a (world st)) as [[e|] w];
  cbn;
  first [ exists []; logged | eexists [_]; logged ].

Lemma List_forwards :
  forwards MList client_List (λ res merged, (true, slices_Concat merged res))
    (λ a (merged : list Key),
       '(res, err) ← a_List a;
       match err with
       | Some _ => slog_Error "error listing";; mret (true, merged)
       | None => mret (true, slices_Concat merged res)
       end).
Proof. forwarding client_List. Qed.

Lemma Signers_forwards :
  forwards MSigners client_Signers (λ res merged, (true, slices_Concat merged res))
    (λ a (merged : list Signer),
       '(res, err) ← a_Signers a;
       match err with
       | Some _ => slog_Error "signers";; mret (true, merged)
       | None => mret (true, slices_Concat merged res)
       end).
Proof. forwarding client_Signers. Qed.

Lemma RemoveAll_forwards :
  forwards MRemoveAll (only_error client_RemoveAll) (λ _ (_ : unit), (true, tt))
    (λ a (_ : unit),
       err ← a_RemoveAll a;
       match err with
       | Some _ => slog_Error "remove all";; mret (true, tt)
       | None => mret (true, tt)
       end).
Proof. forwarding client_RemoveAll. Qed.

Lemma Remove_forwards key :
  forwards MRemove (only_error (λ c, client_Remove c key)) (λ _ (_ : unit), (true, tt))
    (λ a (_ : unit),
       err ← a_Remove a key;
       match err with
       | Some _ => slog_Error "remove";; mret (true, tt)
       | None => mret (true, tt)
       end).
Proof. forwarding (λ c, client_Remove c key). Qed.

Lemma Lock_forwards passphrase :
  forwards MLock (only_error (λ c, client_Lock c passphrase)) (λ _ (_ : unit), (true, tt))
    (λ a (_ : unit),
       err ← a_Lock a passphrase;
       match err with
       | Some _ => slog_Error "lock";; mret (true, tt)
       | None => mret (true, tt)
       end).
Proof. forwarding (λ c, client_Lock c passphrase). Qed.

Lemma Unlock_forwards passphrase :
  forwards MUnlock (only_error (λ c, client_Unlock c passphrase))
    (λ _ (_ : unit), (true, tt))
    (λ a (_ : unit),
       err ← a_Unlock a passphrase;
       match err with
       | Some _ => slog_Error "unlock";; mret (true, tt)
       | None => mret (true, tt)
       end).
Proof. forwarding (λ c, client_Unlock c passphrase). Qed.

Lemma Add_forwards key :
  forwards MAdd (only_error (λ c, client_Add c key))
    (λ _ (_ : option error), (false, Some None))
    (λ a (ret : option error),
       err ← a_Add a key;
       match err with
       | Some _ => slog_Error "error adding";; mret (true, ret)
       | None => slog_Debug "key added";; mret (false, Some None)
       end).
Proof. forwarding (λ c, client_Add c key). Qed.

Lemma Sign_forwards key data :
  forwards MSign (λ c, client_Sign c key data)
    (λ sig (_ : option (option Signature * error)), (false, Some (sig, None)))
    (λ a (ret : option (option Signature * error)),
       '(sig, err) ← a_Sign a key data;
       match err with
       | Some _ => slog_Error "sign failed";; mret (true, ret)
       | None => mret (false, Some (sig, None))
       end).
Proof. forwarding (λ c, client_Sign c key data). Qed.

(** ** What a pass leaves behind *)

Lemma dialed_closes cs : dialed (EvClose <$> cs) = [].
Proof. induction cs as [|c cs IH]; [done|]. by cbn. Qed.

Lemma called_closes cs : called (EvClose <$> cs) = [].
Proof. induction cs as [|c cs IH]; [done|]. by cbn. Qed.

Lemma closed_closes cs : closed (EvClose <$> cs) = cs.
Proof. induction cs as [|c cs IH]; [done|]. cbn. by f_equal. Qed.

Lemma agents_pass {R L} m (call : Conn → World → (R * error) * World)
    (on_ok : R → L → bool * L) (yield : Yield L) :
  forwards m call on_ok yield →
  ∀ l st n l',
    mu (keyring st) = false →
    fanout on_ok (probe call (sockets (keyring st)) (world st)) l = (n, l') →
    ∃ st',
      agents yield l st = Some (l', st') ∧
      keyring st' = keyring st ∧
      dialed (trace st') = dialed (trace st) ++ take n (sockets (keyring st)) ∧
      called (trace st') = called (trace st) ++ ((λ c, (c, m)) <$>
        connected (take n (probe call (sockets (keyring st)) (world st)))) ∧
      closed (trace st') = closed (trace st) ++
        rev (connected (take n (probe call (sockets (keyring st)) (world st)))).
Proof.
  intros Hfw l st n l' Hmu Hf.
  destruct (agents_fanout m call on_ok yield Hfw l st n l' Hmu Hf)
    as (evs & w & Hrun & Hd & Hc & Hl).
  eexists. split; [exact Hrun|]. cbn [keyring trace].
  split; [done|].
  change (EvMuLock :: evs ++ ?x) with ([EvMuLock] ++ evs ++ x).
  rewrite !dialed_app, !called_app, !closed_app, Hd, Hc, (in_loop_closed _ Hl).
  rewrite dialed_closes, called_closes, closed_closes. cbn.
  by rewrite !app_nil_r.
Qed.

(** Seen from one caller: the pass begins by taking the mutex and ends by
    releasing it; every dial, call and close lies in between. *)
Lemma agents_holds_mutex_throughout {R L} m
    (call : Conn → World → (R * error) * World)
    (on_ok : R → L → bool * L) (yield : Yield L) :
  forwards m call on_ok yield →
  ∀ l st,
    mu (keyring st) = false →
    ∃ l' st' mid,
      agents yield l st = Some (l', st') ∧
      trace st' = trace st ++ EvMuLock :: mid ++ [EvMuUnlock] ∧
      Forall (λ e, ¬ mutex_event e) mid.
Proof.
  intros Hfw l st Hmu.
  destruct (fanout on_ok (probe call (sockets (keyring st)) (world st)) l)
    as [n l'] eqn:Hf.
  destruct (agents_fanout m call on_ok yield Hfw l st n l' Hmu Hf)
    as (evs & w & Hrun & _ & _ & Hl).
  eexists l', _, (evs ++ _). split; [exact Hrun|]. cbn [trace].
  split; [by rewrite <- app_assoc|].
  apply Forall_app. split.
  - eapply Forall_impl; [exact Hl|]. intros e He Hm. by destruct e.
  - apply Forall_fmap, Forall_true. by intros c Hm.
Qed.

(** ** The specification's properties *)

(** C1. With the mutex free, [List] returns, with a nil error, the
    concatenation in configured order of what the backends list: a backend
    that cannot be dialed or whose agent answers with an error adds
    nothing, the others add their full answer. *)
Theorem List_concatenates_reachable_backends st :
  mu (keyring st) = false →
  fst <$> List st =
    Some (concat (contribution <$>
            probe client_List (sockets (keyring st)) (world st)), None).
Proof.
  intros Hmu. unfold List, range_agents.
  destruct (agents_pass MList client_List _ _ List_forwards [] st _ _ Hmu
              (fanout_collect _ _)) as (st' & Hrun & _).
  by rewrite Hrun.
Qed.

(** X1. With the mutex free, [Signers] returns, with a nil error, the
    concatenation in configured order of the signers of the backends that
    could be dialed and answered without error. *)
Lemma Signers_concatenates_reachable_backends st :
  mu (keyring st) = false →
  fst <$> Signers st =
    Some (concat (contribution <$>
            probe client_Signers (sockets (keyring st)) (world st)), None).
Proof.
  intros Hmu. unfold Signers, range_agents.
  destruct (agents_pass MSigners client_Signers _ _ Signers_forwards [] st _ _ Hmu
              (fanout_collect _ _)) as (st' & Hrun & _).
  by rewrite Hrun.
Qed.

(** C2. If the first backend whose sign call succeeds is the one at
    position [k] and it answers [sig], then [Sign] returns [sig] with a nil
    error; exactly the first [k+1] configured backends are dialed, in
    order, the sign request goes to those of them that could be dialed,
    and nothing after position [k] is contacted. *)
Theorem Sign_returns_first_success key data st k sig :
  mu (keyring st) = false →
  first_success
    (probe (λ c, client_Sign c key data) (sockets (keyring st)) (world st))
    = Some (k, sig) →
  ∃ st',
    Sign key data st = Some ((sig, None), st') ∧
    dialed (trace st') = dialed (trace st) ++ take (S k) (sockets (keyring st)) ∧
    called (trace st') = called (trace st) ++ ((λ c, (c, MSign)) <$>
      connected (take (S k)
        (probe (λ c, client_Sign c key data) (sockets (keyring st)) (world st)))).
Proof.
  intros Hmu Hfirst. unfold Sign, range_agents.
  destruct (agents_pass MSign (λ c, client_Sign c key data) _ _
              (Sign_forwards key data) None st (S k) (Some (sig, None)) Hmu)
    as (st' & Hrun & _ & Hd & Hc & _).
  { by rewrite fanout_first, Hfirst. }
  exists st'. by rewrite Hrun.
Qed.

(** C3. If the first backend that accepts the identity is the one at
    position [k], [Add] dials exactly the first [k+1] configured backends,
    in order, sends the add request to those of them that could be dialed,
    and contacts no backend after position [k]. *)
Theorem Add_stops_at_first_success key st k :
  mu (keyring st) = false →
  first_success
    (probe (only_error (λ c, client_Add c key)) (sockets (keyring st)) (world st))
    = Some (k, tt) →
  ∃ st',
    Add key st = Some (None, st') ∧
    dialed (trace st') = dialed (trace st) ++ take (S k) (sockets (keyring st)) ∧
    called (trace st') = called (trace st) ++ ((λ c, (c, MAdd)) <$>
      connected (take (S k)
        (probe (only_error (λ c, client_Add c key))
           (sockets (keyring st)) (world st)))).
Proof.
  intros Hmu Hfirst. unfold Add, range_agents.
  destruct (agents_pass MAdd (only_error (λ c, client_Add c key)) _ _
              (Add_forwards key) None st (S k) (Some None) Hmu)
    as (st' & Hrun & _ & Hd & Hc & _).
  { by rewrite fanout_first, Hfirst. }
  exists st'. by rewrite Hrun.
Qed.

(** C4. If no backend's sign call succeeds (each is unreachable or
    answers with an error), [Sign] returns a nil signature and a nil
    error. *)
Theorem Sign_without_signer_returns_nil_nil key data st :
  mu (keyring st) = false →
  first_success
    (probe (λ c, client_Sign c key data) (sockets (keyring st)) (world st))
    = None →
  fst <$> Sign key data st = Some (None, None).
Proof.
  intros Hmu Hfirst. unfold Sign, range_agents.
  destruct (agents_pass MSign (λ c, client_Sign c key data) _ _
              (Sign_forwards key data) None st
              (length (probe (λ c, client_Sign c key data)
                         (sockets (keyring st)) (world st))) None Hmu)
    as (st' & Hrun & _).
  { by rewrite fanout_first, Hfirst. }
  by rewrite Hrun.
Qed.

(** C5. If no backend accepts the identity, [Add] has tried every
    configured backend and still returns a nil error. *)
Theorem Add_without_taker_reports_success key st :
  mu (keyring st) = false →
  first_success
    (probe (only_error (λ c, client_Add c key)) (sockets (keyring st)) (world st))
    = None →
  ∃ st',
    Add key st = Some (None, st') ∧
    dialed (trace st') = dialed (trace st) ++ sockets (keyring st).
Proof.
  intros Hmu Hfirst. unfold Add, range_agents.
  destruct (agents_pass MAdd (only_error (λ c, client_Add c key)) _ _
              (Add_forwards key) None st
              (length (probe (only_error (λ c, client_Add c key))
                         (sockets (keyring st)) (world st))) None Hmu)
    as (st' & Hrun & _ & Hd & _).
  { by rewrite fanout_first, Hfirst. }
  exists st'. rewrite Hrun. split; [done|].
  rewrite Hd, take_ge; [done|]. by rewrite probe_length.
Qed.

(** C6. With the mutex free, [Remove], [RemoveAll], [Lock] and [Unlock]
    each return a nil error, whatever the backends answer. *)
Theorem Remove_RemoveAll_Lock_Unlock_report_success key passphrase st :
  mu (keyring st) = false →
  fst <$> Remove key st = Some None ∧
  fst <$> RemoveAll st = Some None ∧
  fst <$> Lock passphrase st = Some None ∧
  fst <$> Unlock passphrase st = Some None.
Proof.
  intros Hmu. unfold Remove, RemoveAll, Lock, Unlock, range_agents.
  destruct (agents_pass _ _ _ _ (Remove_forwards key) tt st _ _ Hmu
              (fanout_broadcast _)) as (st1 & -> & _).
  destruct (agents_pass _ _ _ _ RemoveAll_forwards tt st _ _ Hmu
              (fanout_broadcast _)) as (st2 & -> & _).
  destruct (agents_pass _ _ _ _ (Lock_forwards passphrase) tt st _ _ Hmu
              (fanout_broadcast _)) as (st3 & -> & _).
  destruct (agents_pass _ _ _ _ (Unlock_forwards passphrase) tt st _ _ Hmu
              (fanout_broadcast _)) as (st4 & -> & _).
  done.
Qed.

(** C7. [Extension] returns [agent.ErrExtensionUnsupported] for every
    extension type and payload, in every state, and leaves the state as it
    was: no mutex operation, no dial, no call to a backend. *)
Theorem Extension_is_unsupported extensionType contents st :
  Extension extensionType contents st =
    Some (([], Some ErrExtensionUnsupported), st).
Proof. reflexivity. Qed.

(** ** The key ring across a request *)

Lemma range_agents_keyring {R L A} m (call : Conn → World → (R * error) * World)
    (on_ok : R → L → bool * L) (yield : Yield L) (after : L → A) :
  forwards m call on_ok yield →
  ∀ l st a st',
    range_agents yield l after st = Some (a, st') →
    keyring st' = keyring st.
Proof.
  intros Hfw l st a st'. unfold range_agents.
  destruct (mu (keyring st)) eqn:Hmu.
  { by rewrite agents_blocked. }
  destruct (fanout on_ok (probe call (sockets (keyring st)) (world st)) l)
    as [n l'] eqn:Hf.
  destruct (agents_pass m call on_ok yield Hfw l st n l' Hmu Hf)
    as (st1 & -> & Hk & _).
  intros [= _ <-]. exact Hk.
Qed.

Lemma range_agents_returns {R L A} m (call : Conn → World → (R * error) * World)
    (on_ok : R → L → bool * L) (yield : Yield L) (after : L → A) :
  forwards m call on_ok yield →
  ∀ l st,
    mu (keyring st) = false →
    is_Some (range_agents yield l after st).
Proof.
  intros Hfw l st Hmu. unfold range_agents.
  destruct (fanout on_ok (probe call (sockets (keyring st)) (world st)) l)
    as [n l'] eqn:Hf.
  by destruct (agents_pass m call on_ok yield Hfw l st n l' Hmu Hf)
    as (st1 & -> & _).
Qed.

(** Every request is answered when the mutex is free. *)
Lemma perform_returns req st :
  mu (keyring st) = false → is_Some (perform req st).
Proof.
  intros Hmu.
  destruct req; cbn [perform]; try (apply fmap_is_Some);
    [ eapply range_agents_returns, Hmu; apply List_forwards
    | eapply range_agents_returns, Hmu; apply Signers_forwards
    | eapply range_agents_returns, Hmu; apply Add_forwards
    | eapply range_agents_returns, Hmu; apply Remove_forwards
    | eapply range_agents_returns, Hmu; apply RemoveAll_forwards
    | eapply range_agents_returns, Hmu; apply Lock_forwards
    | eapply range_agents_returns, Hmu; apply Unlock_forwards
    | eapply range_agents_returns, Hmu; apply Sign_forwards
    | done ].
Qed.

(** C9. Whatever the request (List, Signers, Add, Remove, RemoveAll, Lock,
    Unlock, Sign or Extension) and whatever the state it is called in, the
    sockets stored in the key ring are the same when the method returns as
    when it was called. *)
Theorem sockets_unchanged_by_every_request req st st' :
  perform req st = Some st' →
  sockets (keyring st') = sockets (keyring st).
Proof.
  intros Hrun. f_equal. revert Hrun.
  destruct req; cbn [perform]; intros Hrun;
    apply fmap_Some in Hrun as ([res st1] & Hrun & ->); cbn [snd].
  - eapply range_agents_keyring, Hrun. apply List_forwards.
  - eapply range_agents_keyring, Hrun. apply Signers_forwards.
  - eapply range_agents_keyring, Hrun. apply Add_forwards.
  - eapply range_agents_keyring, Hrun. apply Remove_forwards.
  - eapply range_agents_keyring, Hrun. apply RemoveAll_forwards.
  - eapply range_agents_keyring, Hrun. apply Lock_forwards.
  - eapply range_agents_keyring, Hrun. apply Unlock_forwards.
  - eapply range_agents_keyring, Hrun. apply Sign_forwards.
  - by injection Hrun as _ <-.
Qed.

(** ** Every request, seen on the trace *)

Lemma connected_length {R} (outs : list (Reply R)) :
  length (connected outs) ≤ length outs.
Proof.
  unfold connected. induction outs as [|r outs IH]; [done|].
  destruct r; cbn; lia.
Qed.

Lemma called_conns (m : Method) (cs : list Conn) :
  (fst <$> ((λ c, (c, m)) <$> cs)) = cs.
Proof. induction cs as [|c cs IH]; [done|]. cbn. by f_equal. Qed.

Lemma range_agents_pass {R L A} m (call : Conn → World → (R * error) * World)
    (on_ok : R → L → bool * L) (yield : Yield L) (after : L → A) :
  forwards m call on_ok yield →
  ∀ l st a st',
    range_agents yield l after st = Some (a, st') →
    ∃ loop cs n,
      trace st' = trace st ++ EvMuLock :: loop ++ (EvClose <$> rev cs)
                    ++ [EvMuUnlock] ∧
      Forall in_loop loop ∧
      dialed loop = take n (sockets (keyring st)) ∧
      called loop = (λ c, (c, m)) <$> cs ∧
      length cs ≤ length (dialed loop).
Proof.
  intros Hfw l st a st'. unfold range_agents.
  destruct (mu (keyring st)) eqn:Hmu.
  { by rewrite agents_blocked. }
  destruct (fanout on_ok (probe call (sockets (keyring st)) (world st)) l)
    as [n l'] eqn:Hf.
  destruct (agents_fanout m call on_ok yield Hfw l st n l' Hmu Hf)
    as (loop & w & -> & Hd & Hc & Hl).
  intros [= _ <-]. cbn [trace].
  exists loop, (connected (take n (probe call (sockets (keyring st)) (world st)))), n.
  repeat split; try done.
  rewrite Hd. etrans; [apply connected_length|].
  by rewrite !length_take, probe_length.
Qed.

Lemma perform_pass req m st st' :
  perform req st = Some st' →
  method_of req = Some m →
  ∃ loop cs n,
    trace st' = trace st ++ EvMuLock :: loop ++ (EvClose <$> rev cs)
                  ++ [EvMuUnlock] ∧
    Forall in_loop loop ∧
    dialed loop = take n (sockets (keyring st)) ∧
    called loop = (λ c, (c, m)) <$> cs ∧
    length cs ≤ length (dialed loop).
Proof.
  destruct req; cbn [perform method_of]; intros Hrun [= <-];
    apply fmap_Some in Hrun as ([res st1] & Hrun & ->); cbn [snd].
  - eapply range_agents_pass, Hrun. apply List_forwards.
  - eapply range_agents_pass, Hrun. apply Signers_forwards.
  - eapply range_agents_pass, Hrun. apply Add_forwards.
  - eapply range_agents_pass, Hrun. apply Remove_forwards.
  - eapply range_agents_pass, Hrun. apply RemoveAll_forwards.
  - eapply range_agents_pass, Hrun. apply Lock_forwards.
  - eapply range_agents_pass, Hrun. apply Unlock_forwards.
  - eapply range_agents_pass, Hrun. apply Sign_forwards.
Qed.

Lemma range_agents_visits_all {R L A} m (call : Conn → World → (R * error) * World)
    (on_ok : R → L → bool * L) (yield : Yield L) (after : L → A) l l' st :
  forwards m call on_ok yield →
  mu (keyring st) = false →
  fanout on_ok (probe call (sockets (keyring st)) (world st)) l =
    (length (probe call (sockets (keyring st)) (world st)), l') →
  ∃ st', range_agents yield l after st = Some (after l', st') ∧
         visits_all m call st st'.
Proof.
  intros Hfw Hmu Hf. unfold range_agents.
  destruct (agents_pass m call on_ok yield Hfw l st _ l' Hmu Hf)
    as (st' & -> & Hk & Hd & Hc & Hx).
  exists st'. split; [done|]. unfold visits_all.
  rewrite Hd, Hc, Hx, !take_ge; [done|done|by rewrite probe_length].
Qed.

(** X2. With the mutex free, [Remove], [RemoveAll], [Lock], [Unlock],
    [List] and [Signers] each go through the whole configured list,
    whatever fails on the way: every socket is dialed once, in order; every
    backend that answered the dial is sent the method once; every
    connection opened is closed, latest first; and the four that only
    return an error return nil. *)
Theorem exhaustive_methods_visit_every_backend key passphrase st :
  mu (keyring st) = false →
  (∃ st', Remove key st = Some (None, st') ∧
     visits_all MRemove (only_error (λ c, client_Remove c key)) st st') ∧
  (∃ st', RemoveAll st = Some (None, st') ∧
     visits_all MRemoveAll (only_error client_RemoveAll) st st') ∧
  (∃ st', Lock passphrase st = Some (None, st') ∧
     visits_all MLock (only_error (λ c, client_Lock c passphrase)) st st') ∧
  (∃ st', Unlock passphrase st = Some (None, st') ∧
     visits_all MUnlock (only_error (λ c, client_Unlock c passphrase)) st st') ∧
  (∃ keys st', List st = Some ((keys, None), st') ∧
     visits_all MList client_List st st') ∧
  (∃ signers st', Signers st = Some ((signers, None), st') ∧
     visits_all MSigners client_Signers st st').
Proof.
  intros Hmu.
  split; [|split; [|split; [|split; [|split]]]].
  - eapply (range_agents_visits_all _ _ _ _ (λ _ : unit, @None GoError) tt tt);
      [apply Remove_forwards|done|apply fanout_broadcast].
  - eapply (range_agents_visits_all _ _ _ _ (λ _ : unit, @None GoError) tt tt);
      [apply RemoveAll_forwards|done|apply fanout_broadcast].
  - eapply (range_agents_visits_all _ _ _ _ (λ _ : unit, @None GoError) tt tt);
      [apply Lock_forwards|done|apply fanout_broadcast].
  - eapply (range_agents_visits_all _ _ _ _ (λ _ : unit, @None GoError) tt tt);
      [apply Unlock_forwards|done|apply fanout_broadcast].
  - eexists. eapply (range_agents_visits_all _ _ _ _ (λ merged, (merged, None)));
      [apply List_forwards|done|apply fanout_collect].
  - eexists. eapply (range_agents_visits_all _ _ _ _ (λ merged, (merged, None)));
      [apply Signers_forwards|done|apply fanout_collect].
Qed.

(** X3. Whenever a method that goes to the backends returns, what it did
    in between has this shape: the mutex is taken first; then come dials,
    calls and log lines only; then every connection a call was made on is
    closed, latest first, and nothing else is; the mutex is released
    last. This holds on every way out of the loop, the early return of
    [Add] and [Sign] included. *)
Theorem request_trace_shape req m st st' :
  perform req st = Some st' →
  method_of req = Some m →
  ∃ loop,
    trace st' = trace st ++ EvMuLock :: loop
                  ++ (EvClose <$> rev (fst <$> called loop)) ++ [EvMuUnlock] ∧
    Forall in_loop loop.
Proof.
  intros Hrun Hm.
  destruct (perform_pass req m st st' Hrun Hm)
    as (loop & cs & n & Htr & Hl & _ & Hc & _).
  exists loop. split; [|done]. by rewrite Hc, called_conns.
Qed.

(** X4. Whenever a method that goes to the backends returns, the sockets
    it dialed are the first few of the configured ones, each once and in
    order; every call it made used the method of the request and no
    other; and it made at most one call per socket dialed. *)
Theorem request_contacts_are_bounded req m st st' :
  perform req st = Some st' →
  method_of req = Some m →
  ∃ n calls,
    dialed (trace st') = dialed (trace st) ++ take n (sockets (keyring st)) ∧
    called (trace st') = called (trace st) ++ calls ∧
    Forall (λ cm, cm.2 = m) calls ∧
    length calls ≤ n ∧ length calls ≤ length (sockets (keyring st)).
Proof.
  intros Hrun Hm.
  destruct (perform_pass req m st st' Hrun Hm)
    as (loop & cs & n & -> & Hl & Hd & Hc & Hlen).
  exists n, ((λ c, (c, m)) <$> cs).
  change (EvMuLock :: loop ++ ?x) with ([EvMuLock] ++ loop ++ x).
  rewrite !dialed_app, !called_app, dialed_closes, called_closes, Hd, Hc.
  cbn. rewrite !app_nil_r.
  rewrite Hd, length_take in Hlen. rewrite length_fmap.
  repeat split; [|lia..].
  apply Forall_fmap, Forall_true. by intros c.
Qed.

(** X5. A request is answered exactly when the mutex is free or the
    request is [Extension]: [Extension] never waits for the mutex, every
    other method does. *)
Theorem request_returns_unless_locked req st :
  is_Some (perform req st) ↔ mu (keyring st) = false ∨ method_of req = None.
Proof.
  split.
  - intros [st' Hrun].
    destruct (method_of req) as [m|] eqn:Hm; [left|by right].
    destruct (mu (keyring st)) eqn:Hmu; [exfalso|done].
    destruct req; cbn [perform] in Hrun; try done;
      unfold List, Signers, Add, Remove, RemoveAll, Lock, Unlock, Sign,
        range_agents in Hrun;
      by rewrite agents_blocked in Hrun.
  - intros [Hmu|Hm]; [by apply perform_returns|].
    by destruct req.
Qed.

(** X6. The key ring is as it was after every request, so requests can
    follow one another: from a state with the mutex free, any sequence of
    requests is served to the end, and the key ring (mutex free, same
    sockets) is then the one it started with. *)
Theorem any_sequence_of_requests_is_served reqs st :
  mu (keyring st) = false →
  ∃ st', perform_all reqs st = Some st' ∧ keyring st' = keyring st.
Proof.
  revert st. induction reqs as [|req reqs IH]; intros st Hmu; cbn.
  { by exists st. }
  destruct (perform_returns req st Hmu) as [st1 Hrun]. rewrite Hrun.
  assert (keyring st1 = keyring st) as Hk.
  { revert Hrun. destruct req; cbn [perform]; intros Hrun;
      apply fmap_Some in Hrun as ([res st2] & Hrun & ->); cbn [snd].
    - eapply range_agents_keyring, Hrun. apply List_forwards.
    - eapply range_agents_keyring, Hrun. apply Signers_forwards.
    - eapply range_agents_keyring, Hrun. apply Add_forwards.
    - eapply range_agents_keyring, Hrun. apply Remove_forwards.
    - eapply range_agents_keyring, Hrun. apply RemoveAll_forwards.
    - eapply range_agents_keyring, Hrun. apply Lock_forwards.
    - eapply range_agents_keyring, Hrun. apply Unlock_forwards.
    - eapply range_agents_keyring, Hrun. apply Sign_forwards.
    - by injection Hrun as _ <-. }
  destruct (IH st1) as (st' & Hall & Hk'); [by rewrite Hk|].
  exists st'. split; [done|]. by rewrite Hk'.
Qed.

(** X14. When no backend signs, [Sign] has gone through the whole
    configured list before giving its nil answer, and so has [Add] when no
    backend accepts: every socket dialed once, every backend that answered
    the dial asked once, every connection closed. *)
Theorem Sign_and_Add_try_every_backend_before_giving_up key data added st :
  mu (keyring st) = false →
  (first_success
     (probe (λ c, client_Sign c key data) (sockets (keyring st)) (world st))
     = None →
   ∃ st', Sign key data st = Some ((None, None), st') ∧
          visits_all MSign (λ c, client_Sign c key data) st st') ∧
  (first_success
     (probe (only_error (λ c, client_Add c added)) (sockets (keyring st)) (world st))
     = None →
   ∃ st', Add added st = Some (None, st') ∧
          visits_all MAdd (only_error (λ c, client_Add c added)) st st').
Proof.
  intros Hmu. split; intros Hfirst.
  - eapply (range_agents_visits_all _ _ _ _
              (λ ret : option (option Signature * error),
                 match ret with Some r => r | None => (None, None) end) None None);
      [apply Sign_forwards|done|by rewrite fanout_first, Hfirst].
  - eapply (range_agents_visits_all _ _ _ _
              (λ ret : option error,
                 match ret with Some e => e | None => None end) None None);
      [apply Add_forwards|done|by rewrite fanout_first, Hfirst].
Qed.

(** X15. A key ring with no socket configured answers every request
    without dialing anything: the methods that go to the backends only
    take and release the mutex; [List] and [Signers] return empty lists,
    [Sign] a nil signature, and every error is nil. *)
Theorem key_ring_without_sockets key passphrase data added st :
  sockets (keyring st) = [] →
  mu (keyring st) = false →
  let st' := {| keyring := keyring st; world := world st;
                trace := trace st ++ [EvMuLock; EvMuUnlock] |} in
  List st = Some (([], None), st') ∧
  Signers st = Some (([], None), st') ∧
  Sign key data st = Some ((None, None), st') ∧
  Add added st = Some (None, st') ∧
  Remove key st = Some (None, st') ∧
  RemoveAll st = Some (None, st') ∧
  Lock passphrase st = Some (None, st') ∧
  Unlock passphrase st = Some (None, st').
Proof.
  destruct st as [[held socks] w tr]. cbn. intros -> ->.
  unfold List, Signers, Sign, Add, Remove, RemoveAll, Lock, Unlock,
    range_agents, agents, mu_Lock, mu_Unlock.
  cbn. rewrite <- !app_assoc. cbn. done.
Qed.

End ProxyKeyring.

Arguments Unreachable {Conn R}.
Arguments Replied {Conn R} c res err.

(** ** The two entry points *)

Lemma MainGo_accept_loop script p :
  MainGo.accept_loop script p =
    (inl tt, {| global_keyring := global_keyring p;
                output := output p ++ (accept_event <$> script) |}).
Proof.
  revert p. induction script as [|[conn [e|]] script IH]; intros p.
  - cbn. rewrite app_nil_r. by destruct p.
  - cbn. unfold mbind, Proc_bind. cbn. rewrite IH. cbn. by rewrite <- app_assoc.
  - cbn. unfold mbind, Proc_bind. cbn. rewrite IH. cbn. by rewrite <- app_assoc.
Qed.

Lemma Part000_accept_loop script p :
  Part000.accept_loop script p =
    (inl tt, {| global_keyring := global_keyring p;
                output := output p ++ (accept_event <$> script) |}).
Proof.
  revert p. induction script as [|[conn [e|]] script IH]; intros p.
  - cbn. rewrite app_nil_r. by destruct p.
  - cbn. unfold mbind, Proc_bind. cbn. rewrite IH. cbn. by rewrite <- app_assoc.
  - cbn. unfold mbind, Proc_bind. cbn. rewrite IH. cbn. by rewrite <- app_assoc.
Qed.

(** C10. For every environment (arguments, answers of the operating
    system, answers of the successive accepts) and every starting process
    state, [main] of [src/main.go] and [main] of [src/unnamed/part_000] end
    in the same way with the same key ring and the same output, and so do
    their handlers; and the accept loop of either spawns the handler for exactly the accepts that
    succeeded and logs the others, in order. *)
Theorem main_variants_agree env p :
  MainGo.main env p = Part000.main env p ∧
  (∀ conn served, MainGo.handler conn served p = Part000.handler conn served p) ∧
  MainGo.accept_loop (socket_Accept env) p =
    Part000.accept_loop (socket_Accept env) p ∧
  Part000.accept_loop (socket_Accept env) p =
    (inl tt, {| global_keyring := global_keyring p;
                output := output p ++ (accept_event <$> socket_Accept env) |}).
Proof.
  split; [|split; [done|split]].
  - unfold MainGo.main, Part000.main.
    destruct (bool_decide (length (os_Args env) < 2)); [done|].
    destruct (os_CreateTemp env) as [name [e|]]; [done|].
    unfold MainGo.cleanup, Part000.cleanup, MainGo.check, Part000.check,
      mbind, Proc_bind.
    cbn.
    destruct (net_Listen env name) as [e|]; cbn; [done|].
    by rewrite MainGo_accept_loop, Part000_accept_loop.
  - by rewrite MainGo_accept_loop, Part000_accept_loop.
  - apply Part000_accept_loop.
Qed.


(** X8. When startup succeeds, [main] has stored a key ring over exactly
    the arguments after the program name (there is at least one), with
    its mutex free; it has closed and removed the temporary file before
    listening on that file's name; and it has then spawned one handler
    per successful accept and logged each failed one, in order.  Both
    variants. *)
Theorem main_serving env p :
  startup_failure env = false →
  drop 1 (os_Args env) ≠ [] ∧
  MainGo.main env p =
    (inl tt,
     {| global_keyring := Some {| mu := false; sockets := drop 1 (os_Args env) |};
        output := output p ++
          [PCreateTemp "multi-ssh-agent-*";
           PFileClose (os_CreateTemp env).1;
           PRemove (os_CreateTemp env).1;
           PLog LevelInfo "starting"
             ((os_CreateTemp env).1 :: drop 1 (os_Args env));
           PListen (os_CreateTemp env).1]
          ++ (accept_event <$> socket_Accept env) |}) ∧
  Part000.main env p = MainGo.main env p.
Proof.
  unfold startup_failure, MainGo.main, Part000.main.
  destruct (bool_decide (length (os_Args env) < 2)) eqn:Hargs; [done|].
  apply bool_decide_eq_false in Hargs.
  destruct (os_CreateTemp env) as [name [e|]]; [done|].
  unfold MainGo.cleanup, Part000.cleanup, MainGo.check, Part000.check,
    mbind, Proc_bind.
  cbn.
  destruct (net_Listen env name) as [e|]; cbn; [done|].
  intros _. rewrite MainGo_accept_loop, Part000_accept_loop. cbn.
  split; [|split; [|done]].
  - destruct (os_Args env) as [|prog [|sock args]]; cbn in *; [lia|lia|done].
  - by rewrite <- !app_assoc.
Qed.


Example MainGo_exits_without_sockets :
  MainGo.main
    {| os_Args := ["ssh-agent-proxy"];
       os_CreateTemp := ("/tmp/multi-ssh-agent-1", None);
       net_Listen := λ _, None;
       socket_Accept := [(1, None)] |} boot =
  (inr 1, {| global_keyring := None;
             output := [PLog LevelError "fatal" ["no auth sockets specified"]] |}).
Proof. reflexivity. Qed.

Example Part000_serves :
  Part000.main
    {| os_Args := ["ssh-agent-proxy"; "/a"; "/b"];
       os_CreateTemp := ("/tmp/multi-ssh-agent-1", None);
       net_Listen := λ _, None;
       socket_Accept := [(1, None); (0, Some (ErrExternal "closed")); (2, None)] |}
    boot =
  (inl tt,
   {| global_keyring := Some {| mu := false; sockets := ["/a"; "/b"] |};
      output :=
        [PCreateTemp "multi-ssh-agent-*";
         PFileClose "/tmp/multi-ssh-agent-1";
         PRemove "/tmp/multi-ssh-agent-1";
         PLog LevelInfo "starting" ["/tmp/multi-ssh-agent-1"; "/a"; "/b"];
         PListen "/tmp/multi-ssh-agent-1";
         PGo 1; PLog LevelError "accept" []; PGo 2] |}).
Proof. reflexivity. Qed.

(** ** Sessions sharing the key ring *)








(** ** More on the sessions *)














(** ** The properties at work

    Backends [/a] (offline), [/b] and [/c], a free mutex, nothing done
    yet. *)

Lemma List_concatenates_reachable_backends_demo :
  mu (keyring (@mkState nat string (NewProxyKeyring ["/a"; "/b"; "/c"]) 0 []))
    = false ∧
  fst <$> List demo_Dial demo_Close demo_List
            (@mkState nat string (NewProxyKeyring ["/a"; "/b"; "/c"]) 0 [])
    = Some (["x"; "y"; "z"], None).
Proof.
  split; [reflexivity|].
  exact (List_concatenates_reachable_backends demo_Dial demo_Close demo_List
           (@mkState nat string (NewProxyKeyring ["/a"; "/b"; "/c"]) 0 [])
           eq_refl).
Defined.

Lemma Sign_returns_first_success_demo :
  mu (keyring (@mkState nat string (NewProxyKeyring ["/a"; "/b"; "/c"]) 0 []))
    = false ∧
  first_success
    (probe demo_Dial (λ c, demo_Sign c "K" []) ["/a"; "/b"; "/c"] 0)
    = Some (1, Some "signed by /b") ∧
  ∃ st',
    Sign demo_Dial demo_Close demo_Sign "K" []
      (@mkState nat string (NewProxyKeyring ["/a"; "/b"; "/c"]) 0 [])
      = Some ((Some "signed by /b", None), st') ∧
    dialed (trace st') = ["/a"; "/b"] ∧
    called (trace st') = [("/b", MSign)].
Proof.
  split; [reflexivity|]. split; [reflexivity|].
  exact (Sign_returns_first_success demo_Dial demo_Close demo_Sign "K" []
           (@mkState nat string (NewProxyKeyring ["/a"; "/b"; "/c"]) 0 [])
           1 (Some "signed by /b") eq_refl eq_refl).
Defined.

Lemma Add_stops_at_first_success_demo :
  mu (keyring (@mkState nat string (NewProxyKeyring ["/a"; "/b"; "/c"]) 0 []))
    = false ∧
  first_success
    (probe demo_Dial (only_error (λ c, demo_Add c "id")) ["/a"; "/b"; "/c"] 0)
    = Some (1, tt) ∧
  ∃ st',
    Add demo_Dial demo_Close demo_Add "id"
      (@mkState nat string (NewProxyKeyring ["/a"; "/b"; "/c"]) 0 [])
      = Some (None, st') ∧
    dialed (trace st') = ["/a"; "/b"] ∧
    called (trace st') = [("/b", MAdd)].
Proof.
  split; [reflexivity|]. split; [reflexivity|].
  exact (Add_stops_at_first_success demo_Dial demo_Close demo_Add "id"
           (@mkState nat string (NewProxyKeyring ["/a"; "/b"; "/c"]) 0 [])
           1 eq_refl eq_refl).
Defined.

Lemma Sign_without_signer_returns_nil_nil_demo :
  mu (keyring (@mkState nat string (NewProxyKeyring ["/a"; "/b"; "/c"]) 0 []))
    = false ∧
  first_success
    (probe demo_Dial (λ c, deny_Sign c "K" []) ["/a"; "/b"; "/c"] 0) = None ∧
  fst <$> Sign demo_Dial demo_Close deny_Sign "K" []
            (@mkState nat string (NewProxyKeyring ["/a"; "/b"; "/c"]) 0 [])
    = Some (None, None).
Proof.
  split; [reflexivity|]. split; [reflexivity|].
  exact (Sign_without_signer_returns_nil_nil demo_Dial demo_Close deny_Sign "K" []
           (@mkState nat string (NewProxyKeyring ["/a"; "/b"; "/c"]) 0 [])
           eq_refl eq_refl).
Defined.

Lemma Add_without_taker_reports_success_demo :
  mu (keyring (@mkState nat string (NewProxyKeyring ["/a"; "/b"; "/c"]) 0 []))
    = false ∧
  first_success
    (probe demo_Dial (only_error (λ c, deny c "id")) ["/a"; "/b"; "/c"] 0)
    = None ∧
  ∃ st',
    Add demo_Dial demo_Close (deny (A := string)) "id"
      (@mkState nat string (NewProxyKeyring ["/a"; "/b"; "/c"]) 0 [])
      = Some (None, st') ∧
    dialed (trace st') = ["/a"; "/b"; "/c"].
Proof.
  split; [reflexivity|]. split; [reflexivity|].
  exact (Add_without_taker_reports_success demo_Dial demo_Close
           (deny (A := string)) "id"
           (@mkState nat string (NewProxyKeyring ["/a"; "/b"; "/c"]) 0 [])
           eq_refl eq_refl).
Defined.

Lemma Remove_RemoveAll_Lock_Unlock_report_success_demo :
  mu (keyring (@mkState nat string (NewProxyKeyring ["/a"; "/b"; "/c"]) 0 []))
    = false ∧
  fst <$> Remove demo_Dial demo_Close (deny (A := string)) "K"
            (@mkState nat string (NewProxyKeyring ["/a"; "/b"; "/c"]) 0 [])
    = Some None ∧
  fst <$> RemoveAll demo_Dial demo_Close demo_RemoveAll
            (@mkState nat string (NewProxyKeyring ["/a"; "/b"; "/c"]) 0 [])
    = Some None ∧
  fst <$> Lock demo_Dial demo_Close (deny (A := bytes)) []
            (@mkState nat string (NewProxyKeyring ["/a"; "/b"; "/c"]) 0 [])
    = Some None ∧
  fst <$> Unlock demo_Dial demo_Close (deny (A := bytes)) []
            (@mkState nat string (NewProxyKeyring ["/a"; "/b"; "/c"]) 0 [])
    = Some None.
Proof.
  split; [reflexivity|].
  exact (Remove_RemoveAll_Lock_Unlock_report_success demo_Dial demo_Close
           (deny (A := string)) demo_RemoveAll (deny (A := bytes))
           (deny (A := bytes)) "K" []
           (@mkState nat string (NewProxyKeyring ["/a"; "/b"; "/c"]) 0 [])
           eq_refl).
Defined.

Lemma sockets_unchanged_by_every_request_demo :
  perform demo_Dial demo_Close demo_List demo_List demo_Add
    (deny (A := string)) demo_RemoveAll (deny (A := bytes)) (deny (A := bytes))
    demo_Sign (ReqSign "K" [])
    (@mkState nat string (NewProxyKeyring ["/a"; "/b"; "/c"]) 0 [])
    = Some (@mkState nat string (NewProxyKeyring ["/a"; "/b"; "/c"]) 1
              [EvMuLock; EvDial "/a"; EvLog LevelError "error dialing";
               EvDial "/b"; EvCall "/b" MSign; EvClose "/b"; EvMuUnlock]) ∧
  sockets (NewProxyKeyring ["/a"; "/b"; "/c"]) = ["/a"; "/b"; "/c"].
Proof.
  split; [reflexivity|].
  exact (sockets_unchanged_by_every_request demo_Dial demo_Close demo_List
           demo_List demo_Add (deny (A := string)) demo_RemoveAll
           (deny (A := bytes)) (deny (A := bytes)) demo_Sign (ReqSign "K" [])
           (@mkState nat string (NewProxyKeyring ["/a"; "/b"; "/c"]) 0 [])
           (@mkState nat string (NewProxyKeyring ["/a"; "/b"; "/c"]) 1
              [EvMuLock; EvDial "/a"; EvLog LevelError "error dialing";
               EvDial "/b"; EvCall "/b" MSign; EvClose "/b"; EvMuUnlock])
           eq_refl).
Defined.


Lemma Signers_concatenates_reachable_backends_demo :
  mu (keyring (@mkState nat string (NewProxyKeyring ["/a"; "/b"; "/c"]) 0 []))
    = false ∧
  fst <$> Signers demo_Dial demo_Close demo_List
            (@mkState nat string (NewProxyKeyring ["/a"; "/b"; "/c"]) 0 [])
    = Some (["x"; "y"; "z"], None).
Proof.
  split; [reflexivity|].
  exact (Signers_concatenates_reachable_backends demo_Dial demo_Close demo_List
           (@mkState nat string (NewProxyKeyring ["/a"; "/b"; "/c"]) 0 [])
           eq_refl).
Defined.

Lemma exhaustive_methods_visit_every_backend_demo :
  mu (keyring (@mkState nat string (NewProxyKeyring ["/a"; "/b"; "/c"]) 0 []))
    = false ∧
  ∃ st',
    RemoveAll demo_Dial demo_Close demo_RemoveAll
      (@mkState nat string (NewProxyKeyring ["/a"; "/b"; "/c"]) 0 [])
      = Some (None, st') ∧
    dialed (trace st') = ["/a"; "/b"; "/c"] ∧
    called (trace st') = [("/b", MRemoveAll); ("/c", MRemoveAll)] ∧
    closed (trace st') = ["/c"; "/b"] ∧
    keyring st' = NewProxyKeyring ["/a"; "/b"; "/c"].
Proof.
  split; [reflexivity|].
  exact (proj1 (proj2
    (exhaustive_methods_visit_every_backend demo_Dial demo_Close demo_List
       demo_List (deny (A := string)) demo_RemoveAll (deny (A := bytes))
       (deny (A := bytes)) "K" []
       (@mkState nat string (NewProxyKeyring ["/a"; "/b"; "/c"]) 0 [])
       eq_refl))).
Defined.

Lemma request_trace_shape_demo :
  perform demo_Dial demo_Close demo_List demo_List demo_Add
    (deny (A := string)) demo_RemoveAll (deny (A := bytes)) (deny (A := bytes))
    demo_Sign (ReqSign "K" [])
    (@mkState nat string (NewProxyKeyring ["/a"; "/b"; "/c"]) 0 [])
    = Some (@mkState nat string (NewProxyKeyring ["/a"; "/b"; "/c"]) 1
              [EvMuLock; EvDial "/a"; EvLog LevelError "error dialing";
               EvDial "/b"; EvCall "/b" MSign; EvClose "/b"; EvMuUnlock]) ∧
  method_of (ReqSign (AddedKey := string) "K" []) = Some MSign ∧
  ∃ loop : list (@Event string),
    [EvMuLock; EvDial "/a"; EvLog LevelError "error dialing";
     EvDial "/b"; EvCall "/b" MSign; EvClose "/b"; EvMuUnlock]
      = [] ++ EvMuLock :: loop ++ (EvClose <$> rev (fst <$> called loop))
          ++ [EvMuUnlock] ∧
    Forall in_loop loop.
Proof.
  split; [reflexivity|]. split; [reflexivity|].
  exact (request_trace_shape demo_Dial demo_Close demo_List demo_List demo_Add
           (deny (A := string)) demo_RemoveAll (deny (A := bytes))
           (deny (A := bytes)) demo_Sign (ReqSign "K" []) MSign
           (@mkState nat string (NewProxyKeyring ["/a"; "/b"; "/c"]) 0 [])
           (@mkState nat string (NewProxyKeyring ["/a"; "/b"; "/c"]) 1
              [EvMuLock; EvDial "/a"; EvLog LevelError "error dialing";
               EvDial "/b"; EvCall "/b" MSign; EvClose "/b"; EvMuUnlock])
           eq_refl eq_refl).
Defined.

Lemma request_contacts_are_bounded_demo :
  perform demo_Dial demo_Close demo_List demo_List demo_Add
    (deny (A := string)) demo_RemoveAll (deny (A := bytes)) (deny (A := bytes))
    demo_Sign (ReqAdd "id")
    (@mkState nat string (NewProxyKeyring ["/a"; "/b"; "/c"]) 0 [])
    = Some (@mkState nat string (NewProxyKeyring ["/a"; "/b"; "/c"]) 1
              [EvMuLock; EvDial "/a"; EvLog LevelError "error dialing";
               EvDial "/b"; EvCall "/b" MAdd; EvLog LevelDebug "key added";
               EvClose "/b"; EvMuUnlock]) ∧
  method_of (ReqAdd (PublicKey := string) "id") = Some MAdd ∧
  ∃ n (calls : list (string * Method)),
    ["/a"; "/b"] = [] ++ take n ["/a"; "/b"; "/c"] ∧
    [("/b", MAdd)] = [] ++ calls ∧
    Forall (λ cm, cm.2 = MAdd) calls ∧
    length calls ≤ n ∧ length calls ≤ 3.
Proof.
  split; [reflexivity|]. split; [reflexivity|].
  exact (request_contacts_are_bounded demo_Dial demo_Close demo_List demo_List
           demo_Add (deny (A := string)) demo_RemoveAll (deny (A := bytes))
           (deny (A := bytes)) demo_Sign (ReqAdd "id") MAdd
           (@mkState nat string (NewProxyKeyring ["/a"; "/b"; "/c"]) 0 [])
           (@mkState nat string (NewProxyKeyring ["/a"; "/b"; "/c"]) 1
              [EvMuLock; EvDial "/a"; EvLog LevelError "error dialing";
               EvDial "/b"; EvCall "/b" MAdd; EvLog LevelDebug "key added";
               EvClose "/b"; EvMuUnlock])
           eq_refl eq_refl).
Defined.

Lemma any_sequence_of_requests_is_served_demo :
  mu (keyring (@mkState nat string (NewProxyKeyring ["/a"; "/b"; "/c"]) 0 []))
    = false ∧
  ∃ st',
    perform_all demo_Dial demo_Close demo_List demo_List demo_Add
      (deny (A := string)) demo_RemoveAll (deny (A := bytes))
      (deny (A := bytes)) demo_Sign
      [ReqList; ReqExtension "session-bind" []; ReqSign "K" []; ReqRemoveAll]
      (@mkState nat string (NewProxyKeyring ["/a"; "/b"; "/c"]) 0 [])
      = Some st' ∧
    keyring st' = NewProxyKeyring ["/a"; "/b"; "/c"].
Proof.
  split; [reflexivity|].
  exact (any_sequence_of_requests_is_served demo_Dial demo_Close demo_List
           demo_List demo_Add (deny (A := string)) demo_RemoveAll
           (deny (A := bytes)) (deny (A := bytes)) demo_Sign
           [ReqList; ReqExtension "session-bind" []; ReqSign "K" []; ReqRemoveAll]
           (@mkState nat string (NewProxyKeyring ["/a"; "/b"; "/c"]) 0 [])
           eq_refl).
Defined.

Lemma main_serving_demo :
  startup_failure
    {| os_Args := ["ssh-agent-proxy"; "/a"; "/b"];
       os_CreateTemp := ("/tmp/multi-ssh-agent-1", None);
       net_Listen := λ _, None;
       socket_Accept := [(1, None); (0, Some (ErrExternal "closed")); (2, None)] |}
    = false ∧
  ["/a"; "/b"] ≠ [] ∧
  MainGo.main
    {| os_Args := ["ssh-agent-proxy"; "/a"; "/b"];
       os_CreateTemp := ("/tmp/multi-ssh-agent-1", None);
       net_Listen := λ _, None;
       socket_Accept := [(1, None); (0, Some (ErrExternal "closed")); (2, None)] |}
    boot =
  (inl tt,
   {| global_keyring := Some {| mu := false; sockets := ["/a"; "/b"] |};
      output :=
        [PCreateTemp "multi-ssh-agent-*";
         PFileClose "/tmp/multi-ssh-agent-1";
         PRemove "/tmp/multi-ssh-agent-1";
         PLog LevelInfo "starting" ["/tmp/multi-ssh-agent-1"; "/a"; "/b"];
         PListen "/tmp/multi-ssh-agent-1";
         PGo 1; PLog LevelError "accept" []; PGo 2] |}) ∧
  Part000.main
    {| os_Args := ["ssh-agent-proxy"; "/a"; "/b"];
       os_CreateTemp := ("/tmp/multi-ssh-agent-1", None);
       net_Listen := λ _, None;
       socket_Accept := [(1, None); (0, Some (ErrExternal "closed")); (2, None)] |}
    boot =
  MainGo.main
    {| os_Args := ["ssh-agent-proxy"; "/a"; "/b"];
       os_CreateTemp := ("/tmp/multi-ssh-agent-1", None);
       net_Listen := λ _, None;
       socket_Accept := [(1, None); (0, Some (ErrExternal "closed")); (2, None)] |}
    boot.
Proof.
  split; [reflexivity|].
  exact (main_serving
           {| os_Args := ["ssh-agent-proxy"; "/a"; "/b"];
              os_CreateTemp := ("/tmp/multi-ssh-agent-1", None);
              net_Listen := λ _, None;
              socket_Accept :=
                [(1, None); (0, Some (ErrExternal "closed")); (2, None)] |}
           boot eq_refl).
Defined.






Lemma Sign_and_Add_try_every_backend_before_giving_up_demo :
  mu (keyring (@mkState nat string (NewProxyKeyring ["/a"; "/b"; "/c"]) 0 []))
    = false ∧
  first_success
    (probe demo_Dial (λ c, deny_Sign c "K" []) ["/a"; "/b"; "/c"] 0) = None ∧
  ∃ st',
    Sign demo_Dial demo_Close deny_Sign "K" []
      (@mkState nat string (NewProxyKeyring ["/a"; "/b"; "/c"]) 0 [])
      = Some ((None, None), st') ∧
    dialed (trace st') = ["/a"; "/b"; "/c"] ∧
    called (trace st') = [("/b", MSign); ("/c", MSign)] ∧
    closed (trace st') = ["/c"; "/b"] ∧
    keyring st' = NewProxyKeyring ["/a"; "/b"; "/c"].
Proof.
  split; [reflexivity|]. split; [reflexivity|].
  exact (proj1
    (Sign_and_Add_try_every_backend_before_giving_up demo_Dial demo_Close
       (deny (A := string)) deny_Sign "K" [] "id"
       (@mkState nat string (NewProxyKeyring ["/a"; "/b"; "/c"]) 0 [])
       eq_refl) eq_refl).
Defined.

Lemma key_ring_without_sockets_demo :
  sockets (keyring (@mkState nat string (NewProxyKeyring []) 0 [])) = [] ∧
  mu (keyring (@mkState nat string (NewProxyKeyring []) 0 [])) = false ∧
  List demo_Dial demo_Close demo_List (@mkState nat string (NewProxyKeyring []) 0 [])
    = Some (([], None),
            @mkState nat string (NewProxyKeyring []) 0 [EvMuLock; EvMuUnlock]).
Proof.
  split; [reflexivity|]. split; [reflexivity|].
  exact (proj1
    (key_ring_without_sockets demo_Dial demo_Close demo_List demo_List
       demo_Add (deny (A := string)) demo_RemoveAll (deny (A := bytes))
       (deny (A := bytes)) demo_Sign "K" [] [] "id"
       (@mkState nat string (NewProxyKeyring []) 0 [])
       eq_refl eq_refl)).
Defined.
